(** * markup-it: the rule-application engine of [src/models/state.js]

    A shallow embedding of the [State] record of markup-it (the class
    [State extends Record(DEFAULTS)]) and of the two loops it drives:
    [lex] (text to nodes) and [_serialize] (nodes to text).

    Conventions of the embedding.
    - A JavaScript string is the list of its UTF-16 code units ([jsstring]).
    - The Immutable.js [List] is a Rocq [list], the Immutable.js [Map] and
      [Set] are stdpp's [gmap] and [gset].
    - [depth] is a JavaScript number that only ever moves by [++] and [--]:
      it is an integer of [Z] (exact below 2^53).
    - A function that recurses on the result of a rule takes [fuel]: the
      number of nested calls the JavaScript stack still allows. *)

From Stdlib Require Import ZArith NArith Ascii String Lia.
From stdpp Require Import base decidable option list gmap strings.

Local Open Scope Z_scope.

(** ** JavaScript strings *)

Abbreviation jsstring := (list N).

(** The code units of an ASCII literal of the source. *)
Definition jsstr (s : string) : jsstring :=
  map N_of_ascii (list_ascii_of_string s).

(** ECMAScript [WhiteSpace] and [LineTerminator] code units: what
    [String.prototype.trim] strips at both ends. *)
Definition isWhiteSpace (c : N) : bool :=
  ((c =? 9) || (c =? 10) || (c =? 11) || (c =? 12) || (c =? 13) || (c =? 32)
   || (c =? 160) || (c =? 5760) || ((8192 <=? c) && (c <=? 8202))
   || (c =? 8232) || (c =? 8233) || (c =? 8239) || (c =? 8287)
   || (c =? 12288) || (c =? 65279))%N.

Fixpoint trimStart (s : jsstring) : jsstring :=
  match s with
  | c :: s' => if isWhiteSpace c then trimStart s' else s
  | [] => []
  end.

Definition trimEnd (s : jsstring) : jsstring := rev (trimStart (rev s)).

(** [String.prototype.trim] *)
Definition trim (s : jsstring) : jsstring := trimEnd (trimStart s).

(** Truthiness of a string: every string but the empty one. *)
Definition truthy (s : jsstring) : bool :=
  match s with [] => false | _ :: _ => true end.

(** [String.prototype.slice(n)] with a single integer argument: a negative
    [n] counts from the end. *)
Definition slice (n : Z) (s : jsstring) : jsstring :=
  if 0 <=? n then drop (Z.to_nat n) s
  else drop (length s - Z.to_nat (- n))%nat s.

(** ** Outcome of a call: a value, a thrown exception, or the call stack
    exhausted by a recursion that does not stop. *)

Inductive Exn : Type :=
| Error (message : jsstring)
| TypeError.

Inductive Outcome (A : Type) : Type :=
| Return (a : A)
| Throw (e : Exn)
| OutOfFuel.
Arguments Return {A} a.
Arguments Throw {A} e.
Arguments OutOfFuel {A}.

Definition Outcome_map {A B} (f : A -> B) (o : Outcome A) : Outcome B :=
  match o with
  | Return a => Return (f a)
  | Throw e => Throw e
  | OutOfFuel => OutOfFuel
  end.

(** The two messages of [state.js]. *)
Definition identical_state_message : jsstring :=
  jsstr "A rule returns an identical state, returns undefined instead when passing.".

Definition no_rule_prefix : jsstring := jsstr "No rule match node ".

Section Engine.

(** External collaborators, taken as parameters: the marks and prop values
    of the document model, the rule functions with [RuleFunction.exec]
    (module [./rule-function]) and the constant [BLOCKS.TEXT]
    (module [../constants/blocks]). *)
Context {Mark : Type} `{Countable Mark}.
Context {PropVal : Type}.
Context {RuleFunction : Type}.
Variable BLOCKS_TEXT : jsstring.

(** ** Nodes of the document model (slate): a text leaf with its content and
    marks ([Text.createFromString]), and the two containers with a type tag
    and ordered children ([Block.create], [Inline.create]). *)
#[warnings="-register-all"]
Inductive Node : Type :=
| Text (content : jsstring) (mks : gset Mark)
| Block (type : jsstring) (children : list Node)
| Inline (type : jsstring) (children : list Node).

(** [node.kind] *)
Definition node_kind (n : Node) : jsstring :=
  match n with
  | Text _ _ => jsstr "text"
  | Block _ _ => jsstr "block"
  | Inline _ _ => jsstr "inline"
  end.

(** [node.type || ''] : a text leaf has no [type]. *)
Definition node_type_or_empty (n : Node) : jsstring :=
  match n with
  | Text _ _ => []
  | Block t _ => t
  | Inline t _ => t
  end.

(** A rule is an object with an optional [deserialize] and an optional
    [serialize] entry. [rule_member] is what the object answers under any
    other name: a member of its own or one it inherits (for a plain object
    [constructor], [toString], ...), when that member is truthy. *)
Record Rule : Type := mkRule {
  rule_deserialize : option RuleFunction;
  rule_serialize : option RuleFunction;
  rule_member : jsstring -> option RuleFunction
}.

(** [rule[kind]], [None] when the entry is absent (falsy). *)
Definition rule_get (rule : Rule) (k : jsstring) : option RuleFunction :=
  if decide (k = jsstr "deserialize") then rule_deserialize rule
  else if decide (k = jsstr "serialize") then rule_serialize rule
  else rule_member rule k.

(** ** The state record, with the fields of [DEFAULTS]. *)
Record State : Type := mkState {
  text : jsstring;
  nodes : list Node;
  marks : gset Mark;
  kind : jsstring;
  rulesSet : gmap jsstring (list Rule);
  depth : Z;
  props : gmap jsstring PropVal
}.

(** What a rule function hands back for the state object it was given:
    nothing ([undefined], or any falsy value), that very object, or another
    state object.  JavaScript [==] on two objects is identity, so [Same] is
    the only result for which [newState == startState] holds; [Next s] is a
    distinct object whatever its fields. *)
Inductive RuleResult : Type :=
| Pass
| Same
| Next (s : State).

(** [RuleFunction.exec(fn, state)], for rule functions that return. *)
Variable exec : RuleFunction -> State -> RuleResult.

(** The state a result denotes, for the state [this] the rule was given. *)
Definition result_state (this : State) (r : RuleResult) : option State :=
  match r with
  | Pass => None
  | Same => Some this
  | Next s => Some s
  end.

(** [State.create(rulesSet)] *)
Definition create (rs : gmap jsstring (list Rule)) : State :=
  {| text := []; nodes := []; marks := ∅; kind := jsstr "block";
     rulesSet := rs; depth := 0; props := ∅ |}.

(** [get rules()] *)
Definition rules (this : State) : list Rule :=
  default [] (rulesSet this !! kind this).

(** [this.merge({ ... })] for each field the class merges. *)
Definition merge_text (t : jsstring) (this : State) : State :=
  {| text := t; nodes := nodes this; marks := marks this; kind := kind this;
     rulesSet := rulesSet this; depth := depth this; props := props this |}.

Definition merge_nodes (ns : list Node) (this : State) : State :=
  {| text := text this; nodes := ns; marks := marks this; kind := kind this;
     rulesSet := rulesSet this; depth := depth this; props := props this |}.

Definition merge_marks (ms : gset Mark) (this : State) : State :=
  {| text := text this; nodes := nodes this; marks := ms; kind := kind this;
     rulesSet := rulesSet this; depth := depth this; props := props this |}.

Definition merge_kind (k : jsstring) (this : State) : State :=
  {| text := text this; nodes := nodes this; marks := marks this; kind := k;
     rulesSet := rulesSet this; depth := depth this; props := props this |}.

Definition merge_depth (d : Z) (this : State) : State :=
  {| text := text this; nodes := nodes this; marks := marks this;
     kind := kind this; rulesSet := rulesSet this; depth := d;
     props := props this |}.

Definition merge_props (p : gmap jsstring PropVal) (this : State) : State :=
  {| text := text this; nodes := nodes this; marks := marks this;
     kind := kind this; rulesSet := rulesSet this; depth := depth this;
     props := p |}.

Definition use (k : jsstring) (this : State) : State := merge_kind k this.

Definition setProp (key : jsstring) (value : PropVal) (this : State) : State :=
  merge_props (<[key := value]> (props this)) this.

Definition getProp (key : jsstring) (this : State) : option PropVal :=
  props this !! key.

Definition write (str : jsstring) (this : State) : State :=
  merge_text (text this ++ str) this.

Definition replaceText (t : jsstring) (this : State) : State :=
  merge_text t this.

Definition peek (this : State) : option Node := head (nodes this).

Definition shift (this : State) : State := merge_nodes (tail (nodes this)) this.

Definition unshift (node : Node) (this : State) : State :=
  merge_nodes (node :: nodes this) this.

(** The argument of [push]: one node, or an Immutable.js list of nodes. *)
Inductive PushArg : Type :=
| OneNode (node : Node)
| NodeList (l : list Node).

Definition push (node : PushArg) (this : State) : State :=
  match node with
  | NodeList l => merge_nodes (nodes this ++ l) this
  | OneNode n => merge_nodes (nodes this ++ [n]) this
  end.

Definition pushMark (mark : Mark) (this : State) : State :=
  merge_marks (marks this ∪ {[mark]}) this.

Definition pushText (t : jsstring) (this : State) : State :=
  let node := Text t (marks this) in
  let node :=
    if decide (kind this = jsstr "block") then Block BLOCKS_TEXT [node]
    else node in
  push (OneNode node) this.

Definition up (this : State) : State := merge_depth (depth this - 1) this.

Definition down (this : State) : State := merge_depth (depth this + 1) this.

Definition skip (n : Z) (this : State) : State :=
  merge_text (slice n (text this)) this.

(** ** Applying the rules *)

(** The [forEach] of [applyRules] over the functions [rule[kind]] of the
    rules that have one: the callback assigns [newState] and stops the
    iteration (returns [false]) as soon as it is truthy. *)
Fixpoint forEach_rule (fns : list RuleFunction) (state : State)
    (newState : RuleResult) : RuleResult :=
  match fns with
  | [] => newState
  | fn :: fns' =>
      match exec fn state with
      | Pass => forEach_rule fns' state Pass
      | found => found
      end
  end.

(** [applyRules(kind)]: [rules.filter(rule => rule[kind])] keeps, in order,
    the rules with an entry for [kind]; [omap] keeps those entries. *)
Definition applyRules (k : jsstring) (this : State) : RuleResult :=
  forEach_rule (omap (fun rule => rule_get rule k) (rules this)) this Pass.

(** ** The decode loop *)

(** The [opts] object of [lex]: [trim] is absent, or a boolean. *)
Record Opts : Type := mkOpts { opt_trim : option bool }.

Definition no_opts : Opts := {| opt_trim := None |}.

(** [opts.trim !== false] *)
Definition trim_wanted (opts : Opts) : bool :=
  match opt_trim opts with
  | Some false => false
  | _ => true
  end.

(** The first lines of [lex]: [startState] is [state] with the pending
    buffer [rest] pushed as a text node, when what is left of it is truthy. *)
Definition startState_of (state : State) (rest : jsstring) (opts : Opts)
    : State :=
  let trimedRest := if trim_wanted opts then trim rest else rest in
  if truthy trimedRest then pushText trimedRest state else state.

Fixpoint lex (fuel : nat) (state : State) (rest : jsstring) (opts : Opts)
    : Outcome State :=
  match fuel with
  | O => OutOfFuel
  | S fuel' =>
      let startState := startState_of state rest opts in
      match text state with
      | [] => Return startState
      | c :: _ =>
          match applyRules (jsstr "deserialize") startState with
          | Same => Throw (Error identical_state_message)
          | Pass => lex fuel' (skip 1 state) (rest ++ [c]) opts
          | Next newState => lex fuel' newState rest opts
          end
      end
  end.

(** The state [deserialize] runs [lex] on. *)
Definition deserialize_entry (t : jsstring) (this : State) : State :=
  merge_nodes [] (merge_text t (down this)).

Definition deserialize (fuel : nat) (t : jsstring) (this : State)
    : Outcome (list Node) :=
  Outcome_map nodes (lex fuel (deserialize_entry t this) [] no_opts).

(** ** The encode loop *)

Fixpoint _serialize (fuel : nat) (this : State) : Outcome State :=
  match fuel with
  | O => OutOfFuel
  | S fuel' =>
      if (length (nodes this) =? 0)%nat then Return this
      else
        match applyRules (jsstr "serialize") this with
        | Pass =>
            match peek this with
            | Some node =>
                Throw (Error (no_rule_prefix ++ node_kind node ++ jsstr "#"
                              ++ node_type_or_empty node))
            | None => Throw TypeError
            end
        | Same => Throw (Error identical_state_message)
        | Next state => _serialize fuel' state
        end
  end.

(** The state [serialize] runs [_serialize] on. *)
Definition serialize_entry (ns : list Node) (this : State) : State :=
  merge_nodes ns (merge_text [] (down this)).

Definition serialize (fuel : nat) (ns : list Node) (this : State)
    : Outcome jsstring :=
  Outcome_map text (_serialize fuel (serialize_entry ns this)).

(** ** The state operations, as data: a program of calls on a state. *)
Inductive Op : Type :=
| OpUse (k : jsstring)
| OpSetProp (key : jsstring) (value : PropVal)
| OpWrite (str : jsstring)
| OpReplaceText (t : jsstring)
| OpShift
| OpUnshift (node : Node)
| OpPush (node : PushArg)
| OpPushMark (mark : Mark)
| OpPushText (t : jsstring)
| OpUp
| OpDown
| OpSkip (n : Z).

Definition run_op (o : Op) (this : State) : State :=
  match o with
  | OpUse k => use k this
  | OpSetProp key value => setProp key value this
  | OpWrite str => write str this
  | OpReplaceText t => replaceText t this
  | OpShift => shift this
  | OpUnshift node => unshift node this
  | OpPush node => push node this
  | OpPushMark mark => pushMark mark this
  | OpPushText t => pushText t this
  | OpUp => up this
  | OpDown => down this
  | OpSkip n => skip n this
  end.

Definition run_ops (os : list Op) (this : State) : State :=
  fold_left (fun s o => run_op o s) os this.

Definition op_is_up (o : Op) : bool :=
  match o with OpUp => true | _ => false end.

Definition op_is_down (o : Op) : bool :=
  match o with OpDown => true | _ => false end.

Fixpoint count_ops (p : Op -> bool) (os : list Op) : nat :=
  match os with
  | [] => O
  | o :: os' => if p o then S (count_ops p os') else count_ops p os'
  end.

(** ** The wrappers of the two entry points *)

(** The root container of slate, as [Document.create({ nodes })] builds it. *)
Record Document : Type := mkDocument { document_nodes : list Node }.

Definition deserializeToDocument (fuel : nat) (t : jsstring) (this : State)
    : Outcome Document :=
  Outcome_map mkDocument (deserialize fuel t this).

Definition serializeDocument (fuel : nat) (document : Document)
    (this : State) : Outcome jsstring :=
  serialize fuel (document_nodes document) this.

Definition serializeNode (fuel : nat) (node : Node) (this : State)
    : Outcome jsstring :=
  serialize fuel [node] this.

(** ** The rule table of the HTML syntax

    [ALL] is the one general decode rule, the block rules, the inline rules
    and the catch-all encode rule, in this order; the table has the single
    key ['block']. The four parts are modules of their own. *)
Definition ALL (deserializeHtml : Rule) (blocks inlines : list Rule)
    (serializeDefault : Rule) : list Rule :=
  [deserializeHtml] ++ blocks ++ inlines ++ [serializeDefault].

Definition html (deserializeHtml : Rule) (blocks inlines : list Rule)
    (serializeDefault : Rule) : gmap jsstring (list Rule) :=
  {[ jsstr "block" := ALL deserializeHtml blocks inlines serializeDefault ]}.

End Engine.

Arguments Pass {Mark _ _ PropVal RuleFunction}.
Arguments Same {Mark _ _ PropVal RuleFunction}.

(** ** A small rule set to run the engine on

    Marks are named by strings, props carry numbers, and the rule functions
    are the constructors of [ToyFn], executed by [toy_exec]. *)

Inductive ToyFn : Type :=
| FnStar        (* decode: consumes a leading '*' and pushes an inline node *)
| FnDash        (* decode: consumes a leading '-' and pushes an inline node *)
| FnIdentity    (* hands back the state object it was given *)
| FnEcho        (* another rule function that does the same *)
| FnCopy        (* hands back a new state object with the same fields *)
| FnPushOnly    (* pushes a text node and consumes no character *)
| FnEmit        (* encode: shifts the front node and writes "x" *)
| FnWriteOnly   (* encode: writes "x" and shifts nothing *)
| FnTextOnly.   (* encode: as FnEmit, for a text leaf only *)

Abbreviation ToyState := (@State jsstring _ _ N ToyFn).
Abbreviation ToyNode := (@Node jsstring _ _).
Abbreviation ToyResult := (@RuleResult jsstring _ _ N ToyFn).

Definition TOY_TEXT : jsstring := jsstr "unstyled".

Definition toy_consume (c : N) (tag : string) (s : ToyState) : ToyResult :=
  match text s with
  | c' :: _ =>
      if (c' =? c)%N
      then Next (push (OneNode (Inline (jsstr tag) [])) (skip 1 s))
      else Pass
  | [] => Pass
  end.

Definition toy_exec (fn : ToyFn) (s : ToyState) : ToyResult :=
  match fn with
  | FnStar => toy_consume 42 "star" s
  | FnDash => toy_consume 45 "dash" s
  | FnIdentity => Same
  | FnEcho => Same
  | FnCopy => Next s
  | FnPushOnly => Next (pushText TOY_TEXT (jsstr "x") s)
  | FnEmit =>
      match peek s with
      | Some _ => Next (write (jsstr "x") (shift s))
      | None => Pass
      end
  | FnWriteOnly => Next (write (jsstr "x") s)
  | FnTextOnly =>
      match peek s with
      | Some (Text _ _) => Next (write (jsstr "x") (shift s))
      | _ => Pass
      end
  end.

(** Rule objects with one entry and no other member. *)
Definition decoder (fn : ToyFn) : @Rule ToyFn :=
  {| rule_deserialize := Some fn; rule_serialize := None;
     rule_member := fun _ => None |}.

Definition encoder (fn : ToyFn) : @Rule ToyFn :=
  {| rule_deserialize := None; rule_serialize := Some fn;
     rule_member := fun _ => None |}.

(** [State.create({ block: rs, inline: rs })] *)
Definition toy_create (rs : list (@Rule ToyFn)) : ToyState :=
  create (<[jsstr "block" := rs]> (<[jsstr "inline" := rs]> ∅)).

(** A state of kind ['block'] with text [t] to decode under the rules [rs]. *)
Definition toy_decoding (t : string) (rs : list (@Rule ToyFn)) : ToyState :=
  replaceText (jsstr t) (toy_create rs).

(** A state of kind ['block'] with the nodes [ns] to encode under [rs]. *)
Definition toy_encoding (ns : list ToyNode) (rs : list (@Rule ToyFn))
    : ToyState :=
  push (NodeList ns) (toy_create rs).

(** Rule functions that render: an encoder writes the kind of the front
    node and shifts it, a decoder turns the first character into a text
    leaf. *)
Definition toy_render_exec (fn : ToyFn) (s : ToyState) : ToyResult :=
  match peek s with
  | Some n => Next (write (node_kind n) (shift s))
  | None => Pass
  end.

Definition toy_char_exec (fn : ToyFn) (s : ToyState) : ToyResult :=
  match text s with
  | c :: _ => Next (push (OneNode (Text [c] ∅)) (skip 1 s))
  | [] => Pass
  end.

(** ** [matchRule] of [lib/parse/matchRule.js] *)

Section MatchRule.

(** The parsing state and the payload of a match are opaque here; the
    token model ([../models/token]) is taken through [Token.create]. *)
Context {ParsingState Payload Token : Type}.
Variable Token_create : jsstring -> (option jsstring * Payload) -> Token.

(** A match: its [type] entry, when it has one, and the rest of it. *)
Abbreviation Match := (option jsstring * Payload)%type.

(** What [rule.onText(state, text)] gives back: a falsy value, one match,
    or an array (or Immutable.js list) of matches. *)
Inductive OnTextResult : Type :=
| NoMatch
| OneMatch (m : Match)
| Matches (ms : list Match).

Record TextRule : Type := mkTextRule {
  onText : ParsingState -> jsstring -> OnTextResult;
  getType : jsstring
}.

(** [match.type || ruleType] *)
Definition token_type (m : Match) (ruleType : jsstring) : jsstring :=
  match fst m with
  | Some t => if truthy t then t else ruleType
  | None => ruleType
  end.

Definition matchRule (state : ParsingState) (rule : TextRule)
    (t : jsstring) : option (list Token) :=
  let matches := onText rule state t in
  let ruleType := getType rule in
  match matches with
  | NoMatch => None
  | OneMatch m => Some (map (fun m => Token_create (token_type m ruleType) m) [m])
  | Matches ms => Some (map (fun m => Token_create (token_type m ruleType) m) ms)
  end.

End MatchRule.

(** * Properties *)

(** ** [trim] *)

Lemma trimStart_split (s : jsstring) :
  exists a, s = a ++ trimStart s /\ forallb isWhiteSpace a = true.
Proof.
  induction s as [|c s [a [Hs Ha]]]; simpl.
  - exists []. split; reflexivity.
  - destruct (isWhiteSpace c) eqn:Hc.
    + exists (c :: a). simpl. rewrite Hc, Ha. split; [congruence | reflexivity].
    + exists []. split; reflexivity.
Qed.



Lemma trimStart_nil_blank (s : jsstring) :
  trimStart s = [] -> forallb isWhiteSpace s = true.
Proof.
  induction s as [|c s IH]; simpl; [reflexivity|].
  destruct (isWhiteSpace c); simpl; [exact IH | discriminate].
Qed.

Lemma forallb_rev_ws (s : jsstring) :
  forallb isWhiteSpace (rev s) = forallb isWhiteSpace s.
Proof.
  induction s as [|c s IH]; simpl; [reflexivity|].
  rewrite forallb_app, IH. simpl. rewrite andb_true_r. apply andb_comm.
Qed.

Lemma trimEnd_split (s : jsstring) :
  exists b, s = trimEnd s ++ b /\ forallb isWhiteSpace b = true.
Proof.
  unfold trimEnd.
  destruct (trimStart_split (rev s)) as [a [Hs Ha]].
  exists (rev a). split.
  - rewrite <- rev_app_distr, <- Hs, rev_involutive. reflexivity.
  - rewrite forallb_rev_ws. exact Ha.
Qed.



(** [trim] removes a run of white space at each end, and nothing else. *)
Lemma trim_split (s : jsstring) :
  exists a b, s = a ++ trim s ++ b
    /\ forallb isWhiteSpace a = true /\ forallb isWhiteSpace b = true.
Proof.
  unfold trim.
  destruct (trimStart_split s) as [a [Hs Ha]].
  destruct (trimEnd_split (trimStart s)) as [b [Hb Hwb]].
  exists a, b. repeat split; [|assumption|assumption].
  rewrite <- Hb. exact Hs.
Qed.


Lemma head_rev_last (s : jsstring) : head (rev s) = last s.
Proof. rewrite rev_alt. apply head_reverse. Qed.

(** A string with no white space at either end is its own [trim]. *)
Lemma trim_fixed (s : jsstring) :
  (forall c, head s = Some c \/ last s = Some c -> isWhiteSpace c = false) ->
  trim s = s.
Proof.
  intros Hends.
  assert (Hstart : forall u : jsstring,
            (forall c, head u = Some c -> isWhiteSpace c = false) ->
            trimStart u = u).
  { intros [|c u] Hu; simpl; [reflexivity|].
    rewrite (Hu c eq_refl). reflexivity. }
  unfold trim, trimEnd. rewrite (Hstart s) by (intros c Hc; apply Hends; auto).
  rewrite Hstart; [apply rev_involutive|].
  intros c Hc. rewrite head_rev_last in Hc. apply Hends. auto.
Qed.


Lemma trim_nil_blank (s : jsstring) :
  trim s = [] -> forallb isWhiteSpace s = true.
Proof.
  intros Ht. destruct (trim_split s) as [a [b [Hs [Ha Hb]]]].
  rewrite Ht in Hs. rewrite Hs. simpl.
  rewrite forallb_app, Ha, Hb. reflexivity.
Qed.

Section Laws.

Context {Mark : Type} `{Countable Mark}.
Context {PropVal : Type}.
Context {RuleFunction : Type}.
Variable BLOCKS_TEXT : jsstring.
Variable exec : RuleFunction -> @State Mark _ _ PropVal RuleFunction
                -> @RuleResult Mark _ _ PropVal RuleFunction.

Abbreviation St := (@State Mark _ _ PropVal RuleFunction).
Abbreviation Nd := (@Node Mark _ _).

(** ** [applyRules] *)

Lemma forEach_rule_pass (fns : list RuleFunction) (s : St) :
  Forall (fun fn => exec fn s = Pass) fns ->
  forEach_rule exec fns s Pass = Pass.
Proof.
  induction 1 as [|fn fns Hfn _ IH]; simpl; [reflexivity|].
  rewrite Hfn. exact IH.
Qed.

Lemma forEach_rule_first (l1 l2 : list RuleFunction) (fn : RuleFunction)
    (s : St) :
  Forall (fun f => exec f s = Pass) l1 ->
  exec fn s <> Pass ->
  forEach_rule exec (l1 ++ fn :: l2) s Pass = exec fn s.
Proof.
  intros Hl1 Hfn.
  induction Hl1 as [|f l1 Hf _ IH]; simpl.
  - destruct (exec fn s); [congruence | reflexivity | reflexivity].
  - rewrite Hf. exact IH.
Qed.

Lemma omap_pass (k : jsstring) (l : list Rule) (s : St) :
  (forall r f, r ∈ l -> rule_get r k = Some f -> exec f s = Pass) ->
  Forall (fun fn => exec fn s = Pass) (omap (fun r => rule_get r k) l).
Proof.
  intros Hl. apply Forall_forall. intros fn Hin.
  apply list_elem_of_omap in Hin as [r [Hr Hget]].
  exact (Hl r fn Hr Hget).
Qed.

Lemma applyRules_none (k : jsstring) (s : St) :
  (forall r f, r ∈ rules s -> rule_get r k = Some f -> exec f s = Pass) ->
  applyRules exec k s = Pass.
Proof.
  intros Hl. unfold applyRules. apply forEach_rule_pass, omap_pass, Hl.
Qed.

(** A non-none result of [applyRules] is the result of one rule of the
    list, and every rule listed before it passed. *)
Lemma applyRules_found (k : jsstring) (s : St) :
  applyRules exec k s <> Pass ->
  exists l1 rule l2 fn,
    rules s = l1 ++ rule :: l2 /\ rule_get rule k = Some fn
    /\ applyRules exec k s = exec fn s
    /\ forall r f, r ∈ l1 -> rule_get r k = Some f -> exec f s = Pass.
Proof.
  unfold applyRules. generalize (rules s) as l.
  induction l as [|r l IH]; simpl; [congruence|].
  destruct (rule_get r k) as [fn|] eqn:Hget; simpl.
  - destruct (exec fn s) eqn:Hfn.
    + intros Hne. destruct (IH Hne) as (l1 & rule & l2 & g & -> & Hg & Hres & Hl1).
      exists (r :: l1), rule, l2, g. repeat split; [assumption..|].
      intros r' f [-> | Hin]%elem_of_cons Hf; [congruence | eauto].
    + intros _. exists [], r, l, fn. repeat split; [assumption|congruence|].
      intros r' f Hin. inversion Hin.
    + intros _. exists [], r, l, fn. repeat split; [assumption|congruence|].
      intros r' f Hin. inversion Hin.
  - intros Hne. destruct (IH Hne) as (l1 & rule & l2 & g & -> & Hg & Hres & Hl1).
    exists (r :: l1), rule, l2, g. repeat split; [assumption..|].
    intros r' f [-> | Hin]%elem_of_cons Hf; [congruence | eauto].
Qed.

(** C3. [applyRules] tries the rules that offer the requested operation in
    the order of the list and returns the result of the first of them whose
    result is not none: when every rule listed before [rule] either lacks
    the operation or passes, and [rule] does not pass, the result is the
    result of [rule], whatever the rules listed after it would return. *)
Theorem applyRules_first_match (k : jsstring) (s : St) (l1 l2 : list Rule)
    (rule : Rule) (fn : RuleFunction) :
  rules s = l1 ++ rule :: l2 ->
  rule_get rule k = Some fn ->
  (forall r f, r ∈ l1 -> rule_get r k = Some f -> exec f s = Pass) ->
  exec fn s <> Pass ->
  applyRules exec k s = exec fn s.
Proof.
  intros Hrules Hget Hl1 Hfn. unfold applyRules.
  rewrite Hrules, omap_app. simpl. rewrite Hget.
  apply forEach_rule_first; [apply omap_pass, Hl1 | exact Hfn].
Qed.

(** ** The state operations *)

Lemma pushText_nodes (t : jsstring) (s : St) :
  nodes (pushText BLOCKS_TEXT t s)
  = nodes s ++ [if decide (kind s = jsstr "block")
                then Block BLOCKS_TEXT [Text t (marks s)]
                else Text t (marks s)].
Proof. unfold pushText. simpl. destruct (decide _); reflexivity. Qed.

Lemma pushText_rules (t : jsstring) (s : St) :
  rules (pushText BLOCKS_TEXT t s) = rules s.
Proof. reflexivity. Qed.

Lemma startState_of_text (s : St) (rest : jsstring) (opts : Opts) :
  text (startState_of BLOCKS_TEXT s rest opts) = text s.
Proof. unfold startState_of. destruct (truthy _); reflexivity. Qed.

Lemma startState_of_rules (s : St) (rest : jsstring) (opts : Opts) :
  rules (startState_of BLOCKS_TEXT s rest opts) = rules s.
Proof. unfold startState_of. destruct (truthy _); reflexivity. Qed.

(** C10. [pushText(text)] appends one node to the node stack and changes no
    other field: when [kind] is ['block'] the node is a block of type
    [BLOCKS.TEXT] whose only child is the text leaf, for any other [kind] it
    is the bare text leaf; the leaf holds [text] and the current marks. *)
Theorem pushText_block_or_leaf (t : jsstring) (s : St) :
  (kind s = jsstr "block" ->
     nodes (pushText BLOCKS_TEXT t s)
     = nodes s ++ [Block BLOCKS_TEXT [Text t (marks s)]])
  /\ (kind s <> jsstr "block" ->
     nodes (pushText BLOCKS_TEXT t s) = nodes s ++ [Text t (marks s)])
  /\ pushText BLOCKS_TEXT t s
     = merge_nodes (nodes (pushText BLOCKS_TEXT t s)) s.
Proof.
  rewrite pushText_nodes. split; [|split].
  - intros Hk. destruct (decide _); [reflexivity | contradiction].
  - intros Hk. destruct (decide _); [contradiction | reflexivity].
  - unfold pushText. destruct (decide _); reflexivity.
Qed.

Lemma run_op_keeps_nodes (o : Op) (s : St) :
  exists front back,
    nodes (run_op BLOCKS_TEXT o s)
    = front ++ (match o with OpShift => tail (nodes s) | _ => nodes s end)
      ++ back.
Proof.
  destruct o as [k|key value|str|t| |node|[node|l]|mark|t| | |n]; simpl;
    try (exists [], []; simpl; rewrite app_nil_r; reflexivity).
  - exists [node], []. simpl. rewrite app_nil_r. reflexivity.
  - exists [], [node]. reflexivity.
  - exists [], l. reflexivity.
  - eexists [], _. apply pushText_nodes.
Qed.

(** C8. The marks of a state reach a node only through [pushText], which
    builds the leaf with the marks the state has at that call. [pushMark]
    leaves the node stack as it is, so a mark pushed after a text node does
    not reach that node; and every state operation keeps the nodes already
    on the stack as they are: it may drop the front one ([shift]) or add
    nodes at either end, and never rewrites a node. *)
Theorem marks_never_retroactive (s : St) :
  (forall mark, nodes (pushMark mark s) = nodes s)
  /\ (forall t,
        nodes (pushText BLOCKS_TEXT t s)
        = nodes s ++ [if decide (kind s = jsstr "block")
                      then Block BLOCKS_TEXT [Text t (marks s)]
                      else Text t (marks s)])
  /\ (forall t mark,
        nodes (pushMark mark (pushText BLOCKS_TEXT t s))
        = nodes (pushText BLOCKS_TEXT t s))
  /\ (forall o, exists front back,
        nodes (run_op BLOCKS_TEXT o s)
        = front ++ (match o with OpShift => tail (nodes s) | _ => nodes s end)
          ++ back).
Proof.
  split; [|split; [|split]].
  - intros mark. reflexivity.
  - intros t. apply pushText_nodes.
  - intros t mark. reflexivity.
  - intros o. apply run_op_keeps_nodes.
Qed.

(** ** The nesting depth *)

Lemma run_op_depth (o : Op) (s : St) :
  depth (run_op BLOCKS_TEXT o s)
  = depth s + (if op_is_down o then 1 else 0) - (if op_is_up o then 1 else 0).
Proof.
  destruct o as [k|key value|str|t| |node|[node|l]|mark|t| | |n]; simpl; lia.
Qed.

Lemma run_ops_depth (os : list Op) (s : St) :
  depth (run_ops BLOCKS_TEXT os s)
  = depth s + Z.of_nat (count_ops op_is_down os)
    - Z.of_nat (count_ops op_is_up os).
Proof.
  revert s. induction os as [|o os IH]; intros s.
  - simpl. lia.
  - change (run_ops BLOCKS_TEXT (o :: os) s)
      with (run_ops BLOCKS_TEXT os (run_op BLOCKS_TEXT o s)).
    rewrite IH, run_op_depth. simpl.
    destruct (op_is_down o), (op_is_up o); lia.
Qed.

(** C6, as the code has it. The depth is an integer, 0 in [State.create];
    [down] adds one, [up] subtracts one with no lower bound, and no other
    state operation changes it. After any sequence of operations it is the
    number of [down] minus the number of [up], so it is non-negative exactly
    when the [up] do not outnumber the [down]. [deserialize] and [serialize]
    run their loop on a state one level below the state they are called
    on. *)
Theorem depth_is_downs_minus_ups (rs : gmap jsstring (list Rule))
    (os : list Op) :
  depth (run_ops BLOCKS_TEXT os (create rs : St))
  = Z.of_nat (count_ops op_is_down os) - Z.of_nat (count_ops op_is_up os)
  /\ (0 <= depth (run_ops BLOCKS_TEXT os (create rs : St))
      <-> (count_ops op_is_up os <= count_ops op_is_down os)%nat)
  /\ (forall (t : jsstring) (s : St),
        depth (deserialize_entry t s) = depth s + 1)
  /\ (forall (ns : list Nd) (s : St),
        depth (serialize_entry ns s) = depth s + 1).
Proof.
  rewrite run_ops_depth. simpl. repeat split; intros; lia.
Qed.

(** ** The decode loop *)

Lemma lex_step (fuel : nat) (s : St) (rest : jsstring) (opts : Opts) :
  lex BLOCKS_TEXT exec (S fuel) s rest opts
  = match text s with
    | [] => Return (startState_of BLOCKS_TEXT s rest opts)
    | c :: _ =>
        match applyRules exec (jsstr "deserialize")
                (startState_of BLOCKS_TEXT s rest opts) with
        | Same => Throw (Error identical_state_message)
        | Pass => lex BLOCKS_TEXT exec fuel (skip 1 s) (rest ++ [c]) opts
        | Next newState => lex BLOCKS_TEXT exec fuel newState rest opts
        end
    end.
Proof. reflexivity. Qed.

Lemma startState_of_trimmed (s : St) (rest : jsstring) (opts : Opts) :
  opt_trim opts <> Some false ->
  startState_of BLOCKS_TEXT s rest opts
  = if truthy (trim rest) then pushText BLOCKS_TEXT (trim rest) s else s.
Proof.
  intros Ho. unfold startState_of, trim_wanted.
  destruct (opt_trim opts) as [[|]|]; [reflexivity | congruence | reflexivity].
Qed.



Lemma applyRules_no_rules (k : jsstring) (s : St) :
  rules s = [] -> applyRules exec k s = Pass.
Proof. intros Hr. unfold applyRules. rewrite Hr. reflexivity. Qed.

(** With no rule, [lex] moves the whole text into the pending buffer. *)
Lemma lex_no_rules (opts : Opts) (t : jsstring) :
  forall (s : St) (rest : jsstring) (fuel : nat),
    text s = t -> rules s = [] -> (length t < fuel)%nat ->
    lex BLOCKS_TEXT exec fuel s rest opts
    = Return (startState_of BLOCKS_TEXT (merge_text [] s) (rest ++ t) opts).
Proof.
  induction t as [|c t IH]; intros s rest fuel Ht Hr Hfuel;
    (destruct fuel as [|fuel]; [simpl in Hfuel; lia|]);
    rewrite lex_step, Ht.
  - rewrite app_nil_r. destruct s; simpl in Ht; subst. reflexivity.
  - rewrite applyRules_no_rules by (rewrite startState_of_rules; exact Hr).
    rewrite (IH (skip 1 s) (rest ++ [c]) fuel).
    + rewrite <- app_assoc. reflexivity.
    + simpl. rewrite Ht. reflexivity.
    + exact Hr.
    + simpl in Hfuel. lia.
Qed.

(** The same when the active list has rules and none of them decodes. *)
Lemma lex_no_decode_rules (opts : Opts) (t : jsstring) :
  forall (s : St) (rest : jsstring) (fuel : nat),
    text s = t ->
    omap (fun rule => rule_get rule (jsstr "deserialize")) (rules s) = [] ->
    (length t < fuel)%nat ->
    lex BLOCKS_TEXT exec fuel s rest opts
    = Return (startState_of BLOCKS_TEXT (merge_text [] s) (rest ++ t) opts).
Proof.
  induction t as [|c t IH]; intros s rest fuel Ht Hr Hfuel;
    (destruct fuel as [|fuel]; [simpl in Hfuel; lia|]);
    rewrite lex_step, Ht.
  - rewrite app_nil_r. destruct s; simpl in Ht; subst. reflexivity.
  - unfold applyRules at 1. rewrite startState_of_rules, Hr.
    cbn [forEach_rule].
    rewrite (IH (skip 1 s) (rest ++ [c]) fuel).
    + rewrite <- app_assoc. reflexivity.
    + simpl. rewrite Ht. reflexivity.
    + exact Hr.
    + simpl in Hfuel. lia.
Qed.

(** C1, as the code has it. When the active decode rule list is empty (the
    active rule list holds no rule with a [deserialize] entry: it is empty,
    or all its rules only encode), [deserialize(text)] returns no node when
    [text] trimmed of white space is empty, and otherwise exactly one node,
    made by [pushText] from the trimmed text: the text leaf holding
    [text.trim()] and the marks of the state, inside a text block when the
    kind is ['block']. [text.trim()] is [text] without the white space at
    its two ends, and is [text] itself when [text] neither starts nor ends
    with white space. *)
Theorem deserialize_without_rules (t : jsstring) (s : St) (fuel : nat) :
  omap (fun rule => rule_get rule (jsstr "deserialize")) (rules s) = [] ->
  (length t < fuel)%nat ->
  deserialize BLOCKS_TEXT exec fuel t s
  = Return (if truthy (trim t)
            then [if decide (kind s = jsstr "block")
                  then Block BLOCKS_TEXT [Text (trim t) (marks s)]
                  else Text (trim t) (marks s)]
            else [])
  /\ (exists a b, t = a ++ trim t ++ b
        /\ forallb isWhiteSpace a = true /\ forallb isWhiteSpace b = true)
  /\ ((forall c, head t = Some c \/ last t = Some c ->
         isWhiteSpace c = false) -> trim t = t).
Proof.
  intros Hr Hfuel. split; [|split; [apply trim_split | apply trim_fixed]].
  unfold deserialize.
  rewrite (lex_no_decode_rules no_opts t (deserialize_entry t s) [] fuel);
    [|reflexivity|exact Hr|exact Hfuel].
  rewrite startState_of_trimmed by discriminate.
  change ([] ++ t) with t.
  destruct (truthy (trim t)); [|reflexivity].
  unfold Outcome_map. rewrite pushText_nodes. reflexivity.
Qed.

(** C2, as the code has it. When the first decode rule that does not pass
    hands back the very state object it was applied to (the comparison is
    JavaScript [==], identity of objects), [lex] throws an [Error] whose
    message is the fixed text "A rule returns an identical state, returns
    undefined instead when passing.": the message names no rule. *)
Theorem lex_identical_state_error (s : St) (rest : jsstring) (opts : Opts)
    (fuel : nat) (l1 l2 : list Rule) (rule : Rule) (fn : RuleFunction) :
  text s <> [] ->
  rules s = l1 ++ rule :: l2 ->
  rule_get rule (jsstr "deserialize") = Some fn ->
  (forall r f, r ∈ l1 -> rule_get r (jsstr "deserialize") = Some f ->
     exec f (startState_of BLOCKS_TEXT s rest opts) = Pass) ->
  exec fn (startState_of BLOCKS_TEXT s rest opts) = Same ->
  lex BLOCKS_TEXT exec (S fuel) s rest opts
  = Throw (Error identical_state_message).
Proof.
  intros Ht Hrules Hget Hl1 Hfn. rewrite lex_step.
  destruct (text s) as [|c t]; [contradiction|].
  unfold applyRules. rewrite startState_of_rules, Hrules, omap_app.
  simpl. rewrite Hget.
  rewrite forEach_rule_first;
    [rewrite Hfn; reflexivity | apply omap_pass, Hl1 | congruence].
Qed.

Lemma startState_of_rulesSet (s : St) (rest : jsstring) (opts : Opts) :
  rulesSet (startState_of BLOCKS_TEXT s rest opts) = rulesSet s.
Proof. unfold startState_of. destruct (truthy _); reflexivity. Qed.

Lemma startState_of_kind (s : St) (rest : jsstring) (opts : Opts) :
  kind (startState_of BLOCKS_TEXT s rest opts) = kind s.
Proof. unfold startState_of. destruct (truthy _); reflexivity. Qed.

(** [lex] returns or throws within [length text + 1] nested calls when,
    under the rule table and the kind of [s0], the result of a decode rule
    keeps both and has a shorter text than the state the rule was applied
    to. *)
Lemma lex_terminates (s0 : St) (opts : Opts) :
  (forall s s' : St,
     rulesSet s = rulesSet s0 -> kind s = kind s0 -> text s <> [] ->
     applyRules exec (jsstr "deserialize") s = Next s' ->
     rulesSet s' = rulesSet s0 /\ kind s' = kind s0
     /\ (length (text s') < length (text s))%nat) ->
  forall (fuel : nat) (s : St) (rest : jsstring),
    rulesSet s = rulesSet s0 -> kind s = kind s0 ->
    (length (text s) < fuel)%nat ->
    lex BLOCKS_TEXT exec fuel s rest opts <> OutOfFuel.
Proof.
  intros Hshrink.
  induction fuel as [|fuel IH]; intros s rest Hrs Hk Hfuel; [lia|].
  rewrite lex_step. destruct (text s) as [|c t] eqn:Ht; [discriminate|].
  simpl in Hfuel.
  destruct (applyRules _ _ _) as [| |newState] eqn:Hrule.
  - apply IH; [exact Hrs | exact Hk |].
    simpl. rewrite Ht. change (slice 1 (c :: t)) with t. lia.
  - discriminate.
  - destruct (Hshrink (startState_of BLOCKS_TEXT s rest opts) newState)
      as (Hrs' & Hk' & Hlen).
    + rewrite startState_of_rulesSet. exact Hrs.
    + rewrite startState_of_kind. exact Hk.
    + rewrite startState_of_text, Ht. discriminate.
    + exact Hrule.
    + apply IH; [exact Hrs' | exact Hk' |].
      rewrite startState_of_text, Ht in Hlen. simpl in Hlen. lia.
Qed.

(** C7, as the code has it. When no rule matches at a position, [lex] moves
    exactly one character from the text to the pending buffer and goes on.
    For a rule table and a kind under which the result of a decode rule
    always keeps the table and the kind and has a shorter remaining text
    than the state the rule was applied to (in particular under which no
    decode rule ever matches), decoding a text of length n ends, with a
    result or an error, within n + 1 nested calls of [lex]. The condition
    is on the decode rules that [applyRules] runs under this table and
    kind, not on the other rule functions. *)
Theorem decode_linear_when_rules_consume (s0 : St) :
  (forall (s : St) (rest : jsstring) (opts : Opts) (fuel : nat)
          (c : N) (t : jsstring),
     text s = c :: t ->
     applyRules exec (jsstr "deserialize")
       (startState_of BLOCKS_TEXT s rest opts) = Pass ->
     lex BLOCKS_TEXT exec (S fuel) s rest opts
     = lex BLOCKS_TEXT exec fuel (skip 1 s) (rest ++ [c]) opts
     /\ skip 1 s = merge_text t s)
  /\ ((forall s s' : St,
         rulesSet s = rulesSet s0 -> kind s = kind s0 -> text s <> [] ->
         applyRules exec (jsstr "deserialize") s = Next s' ->
         rulesSet s' = rulesSet s0 /\ kind s' = kind s0
         /\ (length (text s') < length (text s))%nat) ->
      (forall (t : jsstring) (fuel : nat),
         (length t < fuel)%nat ->
         deserialize BLOCKS_TEXT exec fuel t s0 <> OutOfFuel)
      /\ (forall (s : St) (rest : jsstring) (opts : Opts) (fuel : nat),
            rulesSet s = rulesSet s0 -> kind s = kind s0 ->
            (length (text s) < fuel)%nat ->
            lex BLOCKS_TEXT exec fuel s rest opts <> OutOfFuel)).
Proof.
  split.
  - intros s rest opts fuel c t Ht Hrule. split.
    + rewrite lex_step, Ht, Hrule. reflexivity.
    + unfold skip. rewrite Ht. reflexivity.
  - intros Hshrink. split.
    + intros t fuel Hfuel. unfold deserialize.
      pose proof (lex_terminates s0 no_opts Hshrink fuel
                    (deserialize_entry t s0) [] eq_refl eq_refl Hfuel) as Hlex.
      destruct (lex _ _ _ _ _ _); simpl; congruence.
    + intros s rest opts fuel Hrs Hk Hfuel.
      exact (lex_terminates s0 opts Hshrink fuel s rest Hrs Hk Hfuel).
Qed.

(** ** The encode loop *)

Lemma _serialize_step (fuel : nat) (s : St) :
  _serialize exec (S fuel) s
  = if (length (nodes s) =? 0)%nat then Return s
    else
      match applyRules exec (jsstr "serialize") s with
      | Pass =>
          match peek s with
          | Some node =>
              Throw (Error (no_rule_prefix ++ node_kind node ++ jsstr "#"
                            ++ node_type_or_empty node))
          | None => Throw TypeError
          end
      | Same => Throw (Error identical_state_message)
      | Next state => _serialize exec fuel state
      end.
Proof. reflexivity. Qed.

Lemma no_rule_message_inj (n n' : Nd) :
  no_rule_prefix ++ node_kind n' ++ jsstr "#" ++ node_type_or_empty n'
  = no_rule_prefix ++ node_kind n ++ jsstr "#" ++ node_type_or_empty n ->
  node_kind n' = node_kind n
  /\ node_type_or_empty n' = node_type_or_empty n.
Proof.
  intros Heq. apply app_inv_head in Heq.
  destruct n as [c m|ty ch|ty ch], n' as [c' m'|ty' ch'|ty' ch'];
    simpl in Heq; try discriminate; split; try reflexivity;
    simpl; congruence.
Qed.

(** C4. When the node stack is not empty and no encode rule matches,
    [_serialize] throws: the node is neither skipped nor given a default
    rendering. The error is an [Error] whose message is "No rule match node "
    followed by the kind of the front node, '#' and its type (nothing for a
    text leaf). The message differs from the message of the identical-state
    error, and determines the kind and the type of the node. *)
Theorem serialize_no_rule_error (s : St) (node : Nd) (ns : list Nd)
    (fuel : nat) :
  nodes s = node :: ns ->
  applyRules exec (jsstr "serialize") s = Pass ->
  _serialize exec (S fuel) s
  = Throw (Error (no_rule_prefix ++ node_kind node ++ jsstr "#"
                  ++ node_type_or_empty node))
  /\ no_rule_prefix ++ node_kind node ++ jsstr "#" ++ node_type_or_empty node
     <> identical_state_message
  /\ (forall node' : Nd,
        no_rule_prefix ++ node_kind node' ++ jsstr "#"
          ++ node_type_or_empty node'
        = no_rule_prefix ++ node_kind node ++ jsstr "#"
          ++ node_type_or_empty node ->
        node_kind node' = node_kind node
        /\ node_type_or_empty node' = node_type_or_empty node).
Proof.
  intros Hn Hrule. split; [|split].
  - rewrite _serialize_step, Hrule. unfold peek. rewrite Hn. reflexivity.
  - discriminate.
  - intros node'. apply no_rule_message_inj.
Qed.

Lemma _serialize_terminates (s0 : St) :
  (forall s s' : St,
     rulesSet s = rulesSet s0 -> kind s = kind s0 -> nodes s <> [] ->
     applyRules exec (jsstr "serialize") s = Next s' ->
     rulesSet s' = rulesSet s0 /\ kind s' = kind s0
     /\ (length (nodes s') < length (nodes s))%nat) ->
  forall (fuel : nat) (s : St),
    rulesSet s = rulesSet s0 -> kind s = kind s0 ->
    (length (nodes s) < fuel)%nat ->
    _serialize exec fuel s <> OutOfFuel
    /\ forall s', _serialize exec fuel s = Return s' -> nodes s' = [].
Proof.
  intros Hshrink. induction fuel as [|fuel IH]; intros s Hrs Hk Hfuel; [lia|].
  rewrite _serialize_step.
  destruct (nodes s) as [|node ns] eqn:Hn; simpl.
  - split; [discriminate|]. intros s' [= <-]. exact Hn.
  - destruct (applyRules _ _ _) as [| |state] eqn:Hrule.
    + unfold peek. rewrite Hn. simpl. split; [|intros s']; discriminate.
    + split; [|intros s']; discriminate.
    + destruct (Hshrink s state Hrs Hk) as (Hrs' & Hk' & Hlen);
        [rewrite Hn; discriminate | exact Hrule |].
      apply IH; [exact Hrs' | exact Hk' |].
      rewrite Hn in Hlen. simpl in *. lia.
Qed.

(** C5, as the code has it. The serialize loop asks of a rule result only
    that it is not the very state object the rule was given: it goes on with
    the state the rule returned, whatever its node stack. For a rule table
    and a kind under which the result of an encode rule always keeps the
    table and the kind and does have a shorter node stack than the state the
    rule was applied to, serializing n nodes ends, with a result or an
    error, within n + 1 nested calls of [_serialize], and a state it returns
    has an empty node stack. The condition is on the encode rules that
    [applyRules] runs under this table and kind, not on the other rule
    functions. *)
Theorem serialize_ends_when_rules_consume (s0 : St) :
  (forall (fuel : nat) (s s' : St),
     nodes s <> [] ->
     applyRules exec (jsstr "serialize") s = Next s' ->
     _serialize exec (S fuel) s = _serialize exec fuel s')
  /\ ((forall s s' : St,
         rulesSet s = rulesSet s0 -> kind s = kind s0 -> nodes s <> [] ->
         applyRules exec (jsstr "serialize") s = Next s' ->
         rulesSet s' = rulesSet s0 /\ kind s' = kind s0
         /\ (length (nodes s') < length (nodes s))%nat) ->
      (forall (ns : list Nd) (fuel : nat),
         (length ns < fuel)%nat ->
         serialize exec fuel ns s0 <> OutOfFuel)
      /\ (forall (fuel : nat) (s : St),
            rulesSet s = rulesSet s0 -> kind s = kind s0 ->
            (length (nodes s) < fuel)%nat ->
            _serialize exec fuel s <> OutOfFuel
            /\ forall s', _serialize exec fuel s = Return s' ->
                          nodes s' = [])).
Proof.
  split.
  - intros fuel s s' Hn Hrule. rewrite _serialize_step, Hrule.
    destruct (nodes s); [contradiction | reflexivity].
  - intros Hshrink. split.
    + intros ns fuel Hfuel. unfold serialize.
      destruct (_serialize_terminates s0 Hshrink fuel (serialize_entry ns s0)
                  eq_refl eq_refl Hfuel) as [Hend _].
      destruct (_serialize _ _ _); simpl; congruence.
    + apply _serialize_terminates, Hshrink.
Qed.

End Laws.

(** * The engine on the small rule set *)

Lemma toy_rules (rs : list (@Rule ToyFn)) (s : ToyState) :
  rulesSet s = rulesSet (toy_create rs) -> kind s = kind (toy_create rs) ->
  rules s = rs.
Proof.
  intros Hrs Hk. unfold rules. rewrite Hrs, Hk. unfold toy_create, create.
  simpl. rewrite lookup_insert_eq. reflexivity.
Qed.

(** Under a table that mixes decoders and encoders, what [applyRules] runs
    for ['deserialize'] are the dash and the star rule: each takes one
    character. *)
Lemma toy_decoders_consume (s s' : ToyState) :
  rulesSet s
  = rulesSet (toy_create [encoder FnWriteOnly; decoder FnDash;
                          decoder FnStar]) ->
  kind s
  = kind (toy_create [encoder FnWriteOnly; decoder FnDash; decoder FnStar]) ->
  text s <> [] ->
  applyRules toy_exec (jsstr "deserialize") s = Next s' ->
  rulesSet s'
  = rulesSet (toy_create [encoder FnWriteOnly; decoder FnDash;
                          decoder FnStar])
  /\ kind s'
     = kind (toy_create [encoder FnWriteOnly; decoder FnDash; decoder FnStar])
  /\ (length (text s') < length (text s))%nat.
Proof.
  intros Hrs Hk Ht. unfold applyRules.
  rewrite (toy_rules _ s Hrs Hk).
  change (omap _ _) with [FnDash; FnStar].
  simpl. unfold toy_consume.
  destruct (text s) as [|c t] eqn:Htext; [contradiction|].
  destruct (c =? 45)%N; [|destruct (c =? 42)%N; [|discriminate]];
    intros [= <-]; simpl; rewrite Htext; change (slice 1 (c :: t)) with t;
    (split; [exact Hrs | split; [exact Hk | simpl; lia]]).
Qed.

(** And for ['serialize'] the text rule and the rule for any node: each
    takes the front node. *)
Lemma toy_encoders_consume (s s' : ToyState) :
  rulesSet s
  = rulesSet (toy_create [decoder FnPushOnly; encoder FnTextOnly;
                          encoder FnEmit]) ->
  kind s
  = kind (toy_create [decoder FnPushOnly; encoder FnTextOnly;
                      encoder FnEmit]) ->
  nodes s <> [] ->
  applyRules toy_exec (jsstr "serialize") s = Next s' ->
  rulesSet s'
  = rulesSet (toy_create [decoder FnPushOnly; encoder FnTextOnly;
                          encoder FnEmit])
  /\ kind s'
     = kind (toy_create [decoder FnPushOnly; encoder FnTextOnly;
                         encoder FnEmit])
  /\ (length (nodes s') < length (nodes s))%nat.
Proof.
  intros Hrs Hk Hn. unfold applyRules.
  rewrite (toy_rules _ s Hrs Hk).
  change (omap _ _) with [FnTextOnly; FnEmit].
  simpl. unfold peek.
  destruct (nodes s) as [|[c m|ty ch|ty ch] ns] eqn:Hnodes; [contradiction|..];
    simpl; intros [= <-]; simpl; rewrite Hnodes;
    (split; [exact Hrs | split; [exact Hk | simpl; lia]]).
Qed.

Ltac toy_rule_cases Hin Hget :=
  repeat (apply elem_of_cons in Hin as [-> | Hin]);
  try (inversion Hin; fail);
  vm_compute in Hget; try discriminate;
  injection Hget as <-; reflexivity.

(** On "*a" the dash rule passes and the star rule matches: the rule that
    comes after the star rule, which would match too, has no say. *)
Lemma applyRules_first_match_witness :
  applyRules toy_exec (jsstr "deserialize")
    (toy_decoding "*a" [encoder FnEmit; decoder FnDash; decoder FnStar;
                        decoder FnPushOnly])
  = toy_exec FnStar
      (toy_decoding "*a" [encoder FnEmit; decoder FnDash; decoder FnStar;
                          decoder FnPushOnly])
  /\ toy_exec FnPushOnly
       (toy_decoding "*a" [encoder FnEmit; decoder FnDash; decoder FnStar;
                           decoder FnPushOnly]) <> Pass.
Proof.
  split; [|discriminate].
  apply (applyRules_first_match toy_exec (jsstr "deserialize") _
           [encoder FnEmit; decoder FnDash] [decoder FnPushOnly]
           (decoder FnStar) FnStar).
  - reflexivity.
  - reflexivity.
  - intros r f Hin Hget. toy_rule_cases Hin Hget.
  - discriminate.
Defined.

(** The active list holds two rules, and both only encode. *)
Lemma deserialize_without_rules_witness :
  deserialize TOY_TEXT toy_exec 4 (jsstr " a ")
    (use (jsstr "inline") (toy_create [encoder FnEmit; encoder FnWriteOnly]))
  = Return [Text (jsstr "a") ∅].
Proof.
  refine (proj1 (deserialize_without_rules TOY_TEXT toy_exec (jsstr " a ")
           (use (jsstr "inline")
              (toy_create [encoder FnEmit; encoder FnWriteOnly])) 4 _ _)).
  - reflexivity.
  - simpl. lia.
Defined.

(** C1 fails as stated: no node comes out of the empty text, and the
    leading white space of " a" is not in the node that comes out of it. *)
Lemma deserialize_without_rules_not_verbatim :
  (forall fuel n,
     deserialize TOY_TEXT toy_exec fuel (jsstr "") (toy_create []) <> Return [n])
  /\ rules (deserialize_entry (jsstr " a")
             (use (jsstr "inline") (toy_create []) : ToyState)) = []
  /\ deserialize TOY_TEXT toy_exec 3 (jsstr " a")
       (use (jsstr "inline") (toy_create []))
     = Return [Text (jsstr "a") ∅]
  /\ jsstr "a" <> jsstr " a".
Proof.
  split; [|split; [|split]].
  - intros [|fuel] n; discriminate.
  - reflexivity.
  - reflexivity.
  - discriminate.
Qed.

Lemma lex_identical_state_error_witness :
  lex TOY_TEXT toy_exec 1
    (toy_decoding "-" [decoder FnStar; decoder FnIdentity]) [] no_opts
  = Throw (Error identical_state_message).
Proof.
  apply (lex_identical_state_error TOY_TEXT toy_exec _ [] no_opts 0
           [decoder FnStar] [] (decoder FnIdentity) FnIdentity).
  - discriminate.
  - reflexivity.
  - reflexivity.
  - intros r f Hin Hget. toy_rule_cases Hin Hget.
  - reflexivity.
Defined.

Lemma lex_copy_rule_runs_forever (fuel : nat) :
  lex TOY_TEXT toy_exec fuel (toy_decoding "a" [decoder FnCopy]) [] no_opts
  = OutOfFuel.
Proof.
  induction fuel as [|fuel IH]; [reflexivity|].
  rewrite lex_step. exact IH.
Qed.

(** C2 fails as stated. A rule that returns a state equal, field by field,
    to the state it was given, as another object, raises no error: [lex]
    recurses on it without end. And the error raised for a rule that returns
    the very object is the same value for two different rules. *)
Lemma lex_equal_state_undetected_and_rule_unnamed :
  result_state (toy_decoding "a" [decoder FnCopy])
    (toy_exec FnCopy (toy_decoding "a" [decoder FnCopy]))
  = Some (toy_decoding "a" [decoder FnCopy])
  /\ (forall fuel,
        lex TOY_TEXT toy_exec fuel (toy_decoding "a" [decoder FnCopy]) []
          no_opts = OutOfFuel)
  /\ decoder FnIdentity <> decoder FnEcho
  /\ lex TOY_TEXT toy_exec 1 (toy_decoding "a" [decoder FnIdentity]) [] no_opts
     = Throw (Error identical_state_message)
  /\ lex TOY_TEXT toy_exec 1 (toy_decoding "a" [decoder FnEcho]) [] no_opts
     = Throw (Error identical_state_message).
Proof.
  split; [|split; [|split; [|split]]].
  - reflexivity.
  - apply lex_copy_rule_runs_forever.
  - discriminate.
  - reflexivity.
  - reflexivity.
Qed.

(** A block of type "p" in front, and only a rule for text leaves. *)
Lemma serialize_no_rule_error_witness :
  _serialize toy_exec 1
    (toy_encoding [Block (jsstr "p") []; Text (jsstr "a") ∅]
       [encoder FnTextOnly])
  = Throw (Error (jsstr "No rule match node block#p")).
Proof.
  apply (serialize_no_rule_error toy_exec
           (toy_encoding [Block (jsstr "p") []; Text (jsstr "a") ∅]
              [encoder FnTextOnly])
           (Block (jsstr "p") []) [Text (jsstr "a") ∅] 0).
  - reflexivity.
  - reflexivity.
Defined.

(** The table holds a decoder that never consumes: it is not consulted. *)
Lemma serialize_ends_when_rules_consume_witness :
  serialize toy_exec 3 [Block (jsstr "p") []; Text (jsstr "a") ∅]
    (toy_create [decoder FnPushOnly; encoder FnTextOnly; encoder FnEmit])
  <> OutOfFuel.
Proof.
  apply (proj1 (proj2 (serialize_ends_when_rules_consume toy_exec
                         (toy_create [decoder FnPushOnly; encoder FnTextOnly;
                                      encoder FnEmit]))
                  toy_encoders_consume)).
  simpl. lia.
Defined.

Lemma serialize_write_only_runs_forever (fuel : nat) :
  forall s : ToyState,
    nodes s <> [] -> rules s = [encoder FnWriteOnly] ->
    _serialize toy_exec fuel s = OutOfFuel.
Proof.
  induction fuel as [|fuel IH]; intros s Hn Hr; [reflexivity|].
  rewrite _serialize_step.
  destruct (nodes s) as [|n ns] eqn:Hnodes; [contradiction|].
  unfold applyRules. rewrite Hr. simpl.
  apply IH; simpl; [rewrite Hnodes; discriminate | exact Hr].
Qed.

(** C5 fails as stated. The rule that writes and shifts nothing is applied
    with success, the node stack of its result is as long as before, and the
    loop goes on with it without end. *)
Lemma serialize_rule_need_not_consume :
  applyRules toy_exec (jsstr "serialize")
    (toy_encoding [Text (jsstr "a") ∅] [encoder FnWriteOnly])
  = Next (write (jsstr "x")
            (toy_encoding [Text (jsstr "a") ∅] [encoder FnWriteOnly]))
  /\ nodes (write (jsstr "x")
             (toy_encoding [Text (jsstr "a") ∅] [encoder FnWriteOnly]))
     = nodes (toy_encoding [Text (jsstr "a") ∅] [encoder FnWriteOnly])
  /\ (forall fuel,
        _serialize toy_exec (S fuel)
          (toy_encoding [Text (jsstr "a") ∅] [encoder FnWriteOnly])
        = _serialize toy_exec fuel
            (write (jsstr "x")
               (toy_encoding [Text (jsstr "a") ∅] [encoder FnWriteOnly])))
  /\ (forall fuel,
        serialize toy_exec fuel [Text (jsstr "a") ∅]
          (toy_create [encoder FnWriteOnly]) = OutOfFuel).
Proof.
  split; [|split; [|split]].
  - reflexivity.
  - reflexivity.
  - intros fuel. reflexivity.
  - intros fuel. unfold serialize.
    rewrite serialize_write_only_runs_forever; [reflexivity|discriminate|].
    reflexivity.
Qed.

(** C6 fails as stated: [up] on a new state gives depth -1. *)
Lemma depth_negative_after_up :
  depth (run_ops TOY_TEXT [OpUp] (toy_create [])) = -1
  /\ ~ 0 <= depth (run_ops TOY_TEXT [OpUp] (toy_create [])).
Proof.
  split; [reflexivity|]. vm_compute. intros Hle. apply Hle. reflexivity.
Qed.

(** The table holds an encoder that never consumes: it is not consulted. *)
Lemma decode_linear_when_rules_consume_witness :
  deserialize TOY_TEXT toy_exec 4 (jsstr "a*b")
    (toy_create [encoder FnWriteOnly; decoder FnDash; decoder FnStar])
  <> OutOfFuel.
Proof.
  apply (proj1 (proj2 (decode_linear_when_rules_consume TOY_TEXT toy_exec
                         (toy_create [encoder FnWriteOnly; decoder FnDash;
                                      decoder FnStar]))
                  toy_decoders_consume)).
  simpl. lia.
Defined.

Lemma lex_push_only_runs_forever (fuel : nat) :
  forall s : ToyState,
    text s = jsstr "a" -> rules s = [decoder FnPushOnly] ->
    lex TOY_TEXT toy_exec fuel s [] no_opts = OutOfFuel.
Proof.
  induction fuel as [|fuel IH]; intros s Ht Hr; [reflexivity|].
  rewrite lex_step, Ht. simpl.
  unfold applyRules. change (startState_of TOY_TEXT s [] no_opts) with s.
  rewrite Hr. simpl.
  apply IH; [exact Ht | exact Hr].
Qed.

(** C7 fails as stated. Under a rule that pushes a node and consumes no
    character, decoding the one-character text "a" never ends, whatever
    the number of steps allowed. *)
Lemma decode_runs_forever_under_push_only :
  ~ exists fuel,
      deserialize TOY_TEXT toy_exec fuel (jsstr "a")
        (toy_create [decoder FnPushOnly]) <> OutOfFuel.
Proof.
  intros [fuel Hend]. apply Hend. unfold deserialize.
  rewrite lex_push_only_runs_forever; reflexivity.
Qed.


(** * Further properties of the state operations *)

#[local] Set Warnings "-clear-no-such-hyp".

Section StateLaws.

Context {Mark : Type} `{Countable Mark}.
Context {PropVal : Type}.
Context {RuleFunction : Type}.
Variable BLOCKS_TEXT : jsstring.

Abbreviation St' := (@State Mark _ _ PropVal RuleFunction).
Abbreviation Nd' := (@Node Mark _ _).

Lemma State_eta (s : St') :
  {| text := text s; nodes := nodes s; marks := marks s; kind := kind s;
     rulesSet := rulesSet s; depth := depth s; props := props s |} = s.
Proof. destruct s; reflexivity. Qed.

(** [getProp] reads back what [setProp] stored under the same key, the
    last value when the key was set twice; the other keys keep their value,
    a key never set reads as nothing ([undefined]), and [setProp] changes no
    field but [props]. *)
Theorem setProp_getProp (key key' : jsstring) (v v' : PropVal) (s : St')
    (rs : gmap jsstring (list Rule)) :
  getProp key (setProp key v s) = Some v
  /\ (key' <> key -> getProp key' (setProp key v s) = getProp key' s)
  /\ getProp key (create rs : St') = None
  /\ setProp key v' (setProp key v s) = setProp key v' s
  /\ setProp key v s = merge_props (props (setProp key v s)) s.
Proof.
  unfold getProp, setProp. simpl. split; [|split; [|split; [|split]]].
  - apply lookup_insert_eq.
  - intros Hne. apply lookup_insert_ne. congruence.
  - apply lookup_empty.
  - unfold merge_props. simpl. rewrite insert_insert_eq. reflexivity.
  - reflexivity.
Qed.

(** [unshift] then [peek] gives the node back, [unshift] then [shift] gives
    the state back, and putting the peeked node back after a [shift]
    restores the state. On an empty stack [peek] gives nothing and [shift]
    changes nothing. *)
Theorem unshift_shift_peek (node : Nd') (s : St') :
  peek (unshift node s) = Some node
  /\ shift (unshift node s) = s
  /\ (peek s = Some node -> unshift node (shift s) = s)
  /\ (nodes s = [] -> peek s = None /\ shift s = s).
Proof.
  split; [|split; [|split]].
  - reflexivity.
  - unfold shift, unshift, merge_nodes. simpl. apply State_eta.
  - unfold peek, shift, unshift, merge_nodes. simpl.
    destruct s as [t [|n ns] m k r d p]; simpl; [discriminate|].
    intros [= ->]. reflexivity.
  - intros Hn. unfold peek, shift, merge_nodes. rewrite Hn. simpl.
    rewrite <- Hn. split; [reflexivity | apply State_eta].
Qed.

Lemma slice_nonneg (n : Z) (t : jsstring) :
  0 <= n -> slice n t = drop (Z.to_nat n) t.
Proof.
  intros Hn. unfold slice. destruct (0 <=? n) eqn:Hle; [reflexivity|].
  apply Z.leb_gt in Hle. lia.
Qed.

Lemma slice_neg (n : Z) (t : jsstring) :
  n < 0 -> slice n t = drop (length t - Z.to_nat (- n)) t.
Proof.
  intros Hn. unfold slice. destruct (0 <=? n) eqn:Hle; [|reflexivity].
  apply Z.leb_le in Hle. lia.
Qed.

(** [skip(n)] with [n >= 0] drops the first [n] characters of the text and
    keeps the rest in order; skipping past the end leaves the empty text
    and is no error; two skips add up. [skip(n)] with [n < 0] keeps the
    last [-n] characters, the whole text when it is shorter. *)
Theorem skip_bounds (n m : Z) (s : St') :
  (0 <= n ->
     text s = take (Z.to_nat n) (text s) ++ text (skip n s)
     /\ length (text (skip n s)) = (length (text s) - Z.to_nat n)%nat)
  /\ (Z.of_nat (length (text s)) <= n -> text (skip n s) = [])
  /\ (0 <= n -> 0 <= m -> skip n (skip m s) = skip (m + n) s)
  /\ (n < 0 ->
      length (text (skip n s)) = Nat.min (Z.to_nat (- n)) (length (text s))
      /\ exists front, text s = front ++ text (skip n s)).
Proof.
  split; [|split; [|split]].
  - intros Hn. simpl. rewrite slice_nonneg by exact Hn.
    rewrite take_drop, length_drop. split; reflexivity.
  - intros Hn. simpl. rewrite slice_nonneg by lia.
    apply drop_ge. lia.
  - intros Hn Hm. unfold skip, merge_text. simpl.
    rewrite !slice_nonneg by lia. rewrite drop_drop.
    replace (Z.to_nat m + Z.to_nat n)%nat with (Z.to_nat (m + n)) by lia.
    reflexivity.
  - intros Hn. simpl. rewrite slice_neg by exact Hn. split.
    + rewrite length_drop. lia.
    + exists (take (length (text s) - Z.to_nat (- n)) (text s)).
      rewrite take_drop. reflexivity.
Qed.

(** [write] only appends to the text: two writes are one write of the two
    strings joined, writing the empty string changes nothing, and a write
    after [replaceText] gives the new text followed by the string. No other
    field changes. *)
Theorem write_appends (a b t : jsstring) (s : St') :
  text (write a s) = text s ++ a
  /\ write b (write a s) = write (a ++ b) s
  /\ write [] s = s
  /\ text (write a (replaceText t s)) = t ++ a
  /\ write a s = merge_text (text (write a s)) s.
Proof.
  unfold write, replaceText, merge_text. simpl.
  split; [|split; [|split; [|split]]]; try reflexivity.
  - rewrite <- app_assoc. reflexivity.
  - rewrite app_nil_r. apply State_eta.
Qed.

Lemma run_op_rulesSet (o : Op) (s : St') :
  rulesSet (run_op BLOCKS_TEXT o s) = rulesSet s.
Proof.
  destruct o as [k|key value|str|t| |node|[node|l]|mark|t| | |n]; reflexivity.
Qed.

Lemma run_op_marks (o : Op) (s : St') :
  marks s ⊆ marks (run_op BLOCKS_TEXT o s).
Proof.
  destruct o as [k|key value|str|t| |node|[node|l]|mark|t| | |n]; simpl;
    set_solver.
Qed.

Lemma run_op_kind (o : Op) (s : St') :
  (forall k, o <> OpUse k) -> kind (run_op BLOCKS_TEXT o s) = kind s.
Proof.
  destruct o as [k|key value|str|t| |node|[node|l]|mark|t| | |n]; intros Hno;
    try reflexivity.
  destruct (Hno k eq_refl).
Qed.

(** Whatever sequence of state operations is run, the rule table of the
    state stays the one it was created with, no mark is ever removed from
    the active marks (there is no operation to drop one), and the kind
    changes only through [use]. *)
Theorem state_operations_preserve (os : list Op) (s : St') :
  rulesSet (run_ops BLOCKS_TEXT os s) = rulesSet s
  /\ marks s ⊆ marks (run_ops BLOCKS_TEXT os s)
  /\ (Forall (fun o => forall k, o <> OpUse k) os ->
      kind (run_ops BLOCKS_TEXT os s) = kind s).
Proof.
  revert s. induction os as [|o os IH]; intros s.
  - simpl. split; [reflexivity|split; [set_solver|reflexivity]].
  - change (run_ops BLOCKS_TEXT (o :: os) s)
      with (run_ops BLOCKS_TEXT os (run_op BLOCKS_TEXT o s)).
    destruct (IH (run_op BLOCKS_TEXT o s)) as (Hr & Hm & Hk).
    split; [|split].
    + rewrite Hr. apply run_op_rulesSet.
    + pose proof (run_op_marks o s). set_solver.
    + intros Hos. inversion Hos as [|o' os' Ho Hos']; subst.
      rewrite (Hk Hos'). apply run_op_kind, Ho.
Qed.

(** The active marks are a set: pushing a mark that is already active
    changes nothing, pushing a mark twice is pushing it once, and the order
    of two pushes does not matter. *)
Theorem pushMark_set (a b : Mark) (s : St') :
  (a ∈ marks s -> pushMark a s = s)
  /\ pushMark a (pushMark a s) = pushMark a s
  /\ pushMark a (pushMark b s) = pushMark b (pushMark a s)
  /\ (forall t, nodes (pushText BLOCKS_TEXT t (pushMark a s))
               = nodes s ++ [if decide (kind s = jsstr "block")
                             then Block BLOCKS_TEXT [Text t (marks s ∪ {[a]})]
                             else Text t (marks s ∪ {[a]})]).
Proof.
  unfold pushMark, merge_marks. simpl. split; [|split; [|split]].
  - intros Ha. replace (marks s ∪ {[a]}) with (marks s) by set_solver.
    apply State_eta.
  - f_equal. set_solver.
  - f_equal. set_solver.
  - intros t. unfold pushText. simpl. destruct (decide _); reflexivity.
Qed.

End StateLaws.

(** * Further properties of the two loops *)

Section LoopLaws.

Context {Mark : Type} `{Countable Mark}.
Context {PropVal : Type}.
Context {RuleFunction : Type}.
Variable BLOCKS_TEXT : jsstring.
Variable exec : RuleFunction -> @State Mark _ _ PropVal RuleFunction
                -> @RuleResult Mark _ _ PropVal RuleFunction.

Abbreviation St2 := (@State Mark _ _ PropVal RuleFunction).
Abbreviation Nd2 := (@Node Mark _ _).

Lemma forEach_rule_pass_inv (fns : list RuleFunction) (s : St2) :
  forEach_rule exec fns s Pass = Pass ->
  Forall (fun fn => exec fn s = Pass) fns.
Proof.
  induction fns as [|fn fns IH]; simpl; [constructor|].
  destruct (exec fn s) eqn:Hfn; try discriminate.
  intros Hrest. constructor; [exact Hfn | exact (IH Hrest)].
Qed.

Lemma applyRules_pass_iff_aux (k : jsstring) (s : St2) :
  applyRules exec k s = Pass
  <-> forall r f, r ∈ rules s -> rule_get r k = Some f -> exec f s = Pass.
Proof.
  split.
  - unfold applyRules. intros Hpass r f Hr Hget.
    apply forEach_rule_pass_inv in Hpass.
    rewrite Forall_forall in Hpass. apply Hpass.
    apply list_elem_of_omap. exists r. split; assumption.
  - apply applyRules_none.
Qed.

(** [applyRules(kind)] gives nothing exactly when every rule of the active
    list that has an entry for [kind] gives nothing on this state: so it
    gives nothing on an empty list, and it gives a result as soon as one
    rule of the list, wherever it stands, does not pass. *)
Theorem applyRules_pass_iff (k : jsstring) (s : St2) :
  (applyRules exec k s = Pass
   <-> forall r f, r ∈ rules s -> rule_get r k = Some f -> exec f s = Pass)
  /\ (rules s = [] -> applyRules exec k s = Pass)
  /\ (forall r f, r ∈ rules s -> rule_get r k = Some f -> exec f s <> Pass ->
        applyRules exec k s <> Pass).
Proof.
  split; [apply applyRules_pass_iff_aux|split].
  - intros Hr. apply applyRules_pass_iff_aux. rewrite Hr.
    intros r f Hin. inversion Hin.
  - intros r f Hr Hget Hf Hpass.
    apply Hf. exact (proj1 (applyRules_pass_iff_aux k s) Hpass r f Hr Hget).
Qed.

Lemma applyRules_catch_all (k : jsstring) (s : St2) (r : Rule)
    (fn : RuleFunction) :
  r ∈ rules s -> rule_get r k = Some fn -> exec fn s <> Pass ->
  applyRules exec k s <> Pass.
Proof.
  intros Hr Hget Hfn Hpass.
  apply Hfn. exact (proj1 (applyRules_pass_iff_aux k s) Hpass r fn Hr Hget).
Qed.

(** Under the HTML rule table a state of kind ['block'] has the list [ALL]
    as its rules, so the general decode rule is tried first and wins when it
    matches, and the encode loop never finds itself without a rule when the
    catch-all rule at the end of the list never passes. A state of any other
    kind has no rule at all: every [applyRules] gives nothing. *)
Theorem html_table_rules (deserializeHtml serializeDefault : Rule)
    (blocks inlines : list Rule) (s : St2) :
  rulesSet s = html deserializeHtml blocks inlines serializeDefault ->
  (kind s = jsstr "block" ->
     rules s = ALL deserializeHtml blocks inlines serializeDefault
     /\ (forall fn, rule_get deserializeHtml (jsstr "deserialize") = Some fn ->
           exec fn s <> Pass ->
           applyRules exec (jsstr "deserialize") s = exec fn s)
     /\ (forall fn, rule_get serializeDefault (jsstr "serialize") = Some fn ->
           exec fn s <> Pass ->
           applyRules exec (jsstr "serialize") s <> Pass))
  /\ (kind s <> jsstr "block" ->
      rules s = [] /\ forall k, applyRules exec k s = Pass).
Proof.
  intros Hrs. split.
  - intros Hk.
    assert (Hrules : rules s
                     = ALL deserializeHtml blocks inlines serializeDefault).
    { unfold rules, html. rewrite Hrs, Hk. unfold html.
      rewrite lookup_singleton_eq. reflexivity. }
    split; [exact Hrules|split].
    + intros fn Hget Hfn. unfold applyRules. rewrite Hrules. unfold ALL.
      simpl. rewrite Hget. simpl.
      destruct (exec fn s); [congruence | reflexivity | reflexivity].
    + intros fn Hget Hfn.
      apply (applyRules_catch_all (jsstr "serialize") s serializeDefault fn);
        [|exact Hget|exact Hfn].
      rewrite Hrules. unfold ALL. rewrite !elem_of_app.
      right. right. right. apply list_elem_of_singleton. reflexivity.
  - intros Hk.
    assert (Hrules : rules s = []).
    { unfold rules. rewrite Hrs. unfold html.
      rewrite lookup_singleton_ne by congruence. reflexivity. }
    split; [exact Hrules|].
    intros k. unfold applyRules. rewrite Hrules. reflexivity.
Qed.

(** When the first encode rule that does not pass hands back the very
    state object it was given, [_serialize] throws the [Error] with the
    fixed identical-state message, the same as [lex] does. *)
Theorem _serialize_identical_state_error (s : St2) (fuel : nat)
    (l1 l2 : list Rule) (rule : Rule) (fn : RuleFunction) :
  nodes s <> [] ->
  rules s = l1 ++ rule :: l2 ->
  rule_get rule (jsstr "serialize") = Some fn ->
  (forall r f, r ∈ l1 -> rule_get r (jsstr "serialize") = Some f ->
     exec f s = Pass) ->
  exec fn s = Same ->
  _serialize exec (S fuel) s = Throw (Error identical_state_message).
Proof.
  intros Hn Hrules Hget Hl1 Hfn. rewrite _serialize_step.
  destruct (nodes s) as [|n ns]; [contradiction|]. simpl.
  unfold applyRules. rewrite Hrules, omap_app. simpl. rewrite Hget.
  rewrite forEach_rule_first;
    [rewrite Hfn; reflexivity | apply omap_pass, Hl1 | congruence].
Qed.

Lemma _serialize_renders (render : Nd2 -> jsstring) (s0 : St2) :
  (forall (s : St2) node rest,
     rulesSet s = rulesSet s0 -> kind s = kind s0 -> nodes s = node :: rest ->
     applyRules exec (jsstr "serialize") s
     = Next (write (render node) (shift s))) ->
  forall (ns : list Nd2) (s : St2) (fuel : nat),
    rulesSet s = rulesSet s0 -> kind s = kind s0 -> nodes s = ns ->
    (length ns < fuel)%nat ->
    _serialize exec fuel s
    = Return (merge_nodes [] (merge_text (text s ++ concat (map render ns)) s)).
Proof.
  intros Hrule. induction ns as [|n ns IH]; intros s fuel Hrs Hk Hn Hfuel;
    (destruct fuel as [|fuel]; [simpl in Hfuel; lia|]);
    rewrite _serialize_step, Hn; simpl.
  - rewrite app_nil_r. destruct s; simpl in Hn; subst. reflexivity.
  - rewrite (Hrule s n ns Hrs Hk Hn).
    rewrite (IH (write (render n) (shift s)) fuel); simpl.
    + unfold merge_nodes, merge_text. simpl. rewrite <- app_assoc.
      reflexivity.
    + exact Hrs.
    + exact Hk.
    + rewrite Hn. reflexivity.
    + simpl in Hfuel. lia.
Qed.

(** When the rules render one node at a time (on a non-empty stack the rule
    that applies writes the rendering of the front node and shifts it),
    [serialize] returns the renderings of the nodes joined in the order of
    the nodes, within one nested call per node; [serializeDocument] gives
    the same for the nodes of a document and [serializeNode] the rendering
    of the node. The text of the state [serialize] is called on is not part
    of the result. *)
Theorem serialize_renders_in_order (render : Nd2 -> jsstring) (s0 : St2) :
  (forall (s : St2) node rest,
     rulesSet s = rulesSet s0 -> kind s = kind s0 -> nodes s = node :: rest ->
     applyRules exec (jsstr "serialize") s
     = Next (write (render node) (shift s))) ->
  (forall (ns : list Nd2) (fuel : nat),
     (length ns < fuel)%nat ->
     serialize exec fuel ns s0 = Return (concat (map render ns))
     /\ serializeDocument exec fuel (mkDocument ns) s0
        = Return (concat (map render ns)))
  /\ (forall (node : Nd2) (fuel : nat),
        (1 < fuel)%nat -> serializeNode exec fuel node s0 = Return (render node)).
Proof.
  intros Hrule.
  assert (Hser : forall (ns : list Nd2) (fuel : nat),
            (length ns < fuel)%nat ->
            serialize exec fuel ns s0 = Return (concat (map render ns))).
  { intros ns fuel Hfuel. unfold serialize.
    rewrite (_serialize_renders render s0 Hrule ns (serialize_entry ns s0) fuel);
      try reflexivity; exact Hfuel. }
  split.
  - intros ns fuel Hfuel. split; apply Hser, Hfuel.
  - intros node fuel Hfuel. unfold serializeNode.
    rewrite Hser by (simpl; lia). simpl. rewrite app_nil_r. reflexivity.
Qed.

Lemma startState_of_nil (s : St2) (opts : Opts) :
  startState_of BLOCKS_TEXT s [] opts = s.
Proof. unfold startState_of. destruct (trim_wanted opts); reflexivity. Qed.

Lemma lex_tokens (tok : N -> Nd2) (s0 : St2) :
  (forall (s : St2) c t,
     rulesSet s = rulesSet s0 -> kind s = kind s0 -> text s = c :: t ->
     applyRules exec (jsstr "deserialize") s
     = Next (push (OneNode (tok c)) (skip 1 s))) ->
  forall (t : jsstring) (s : St2) (fuel : nat) (opts : Opts),
    rulesSet s = rulesSet s0 -> kind s = kind s0 -> text s = t ->
    (length t < fuel)%nat ->
    lex BLOCKS_TEXT exec fuel s [] opts
    = Return (merge_text [] (merge_nodes (nodes s ++ map tok t) s)).
Proof.
  intros Hrule. induction t as [|c t IH]; intros s fuel opts Hrs Hk Ht Hfuel;
    (destruct fuel as [|fuel]; [simpl in Hfuel; lia|]);
    rewrite lex_step, startState_of_nil, Ht.
  - simpl. rewrite app_nil_r. destruct s; simpl in Ht; subst. reflexivity.
  - rewrite (Hrule s c t Hrs Hk Ht).
    rewrite (IH (push (OneNode (tok c)) (skip 1 s)) fuel opts).
    + unfold merge_nodes, merge_text. simpl. rewrite <- app_assoc.
      reflexivity.
    + exact Hrs.
    + exact Hk.
    + simpl. rewrite Ht. reflexivity.
    + simpl in Hfuel. lia.
Qed.

(** When the rules always match (on a non-empty text the rule that applies
    consumes the first character and pushes the node made from it),
    [deserialize] returns the nodes of the characters in the order of the
    text, within one nested call per character: no character goes to the
    pending buffer, and [deserializeToDocument] wraps the same nodes. *)
Theorem deserialize_tokens_in_order (tok : N -> Nd2) (s0 : St2) :
  (forall (s : St2) c t,
     rulesSet s = rulesSet s0 -> kind s = kind s0 -> text s = c :: t ->
     applyRules exec (jsstr "deserialize") s
     = Next (push (OneNode (tok c)) (skip 1 s))) ->
  forall (t : jsstring) (fuel : nat),
    (length t < fuel)%nat ->
    deserialize BLOCKS_TEXT exec fuel t s0 = Return (map tok t)
    /\ deserializeToDocument BLOCKS_TEXT exec fuel t s0
       = Return (mkDocument (map tok t)).
Proof.
  intros Hrule t fuel Hfuel.
  assert (Hdes : deserialize BLOCKS_TEXT exec fuel t s0 = Return (map tok t)).
  { unfold deserialize.
    rewrite (lex_tokens tok s0 Hrule t (deserialize_entry t s0) fuel no_opts);
      try reflexivity; exact Hfuel. }
  split; [exact Hdes|].
  unfold deserializeToDocument. rewrite Hdes. reflexivity.
Qed.

(** With [opts.trim] set to [false] and an empty rule list, [lex] keeps the
    white space: it returns the state with the text consumed and, when the
    pending buffer followed by the text is not empty, one more node made by
    [pushText] from exactly these characters. *)
Theorem lex_untrimmed_verbatim (s : St2) (rest : jsstring) (opts : Opts)
    (fuel : nat) :
  opt_trim opts = Some false ->
  rules s = [] ->
  (length (text s) < fuel)%nat ->
  lex BLOCKS_TEXT exec fuel s rest opts
  = Return (if truthy (rest ++ text s)
            then pushText BLOCKS_TEXT (rest ++ text s) (merge_text [] s)
            else merge_text [] s).
Proof.
  intros Ho Hr Hfuel.
  rewrite (lex_no_rules BLOCKS_TEXT exec opts (text s) s rest fuel eq_refl Hr
             Hfuel).
  unfold startState_of, trim_wanted. rewrite Ho. reflexivity.
Qed.

(** After a rule matches, [lex] goes on with the state of the rule and the
    same pending buffer. When the buffer was not empty it had been pushed as
    a text node on the state given to the rule, and the next call pushes it
    once more: if the rule consumed the rest of the text, the result is the
    state of the rule with the buffer pushed again at the end. *)
Theorem lex_match_keeps_buffer (s s' : St2) (rest : jsstring) (opts : Opts)
    (fuel : nat) :
  truthy (if trim_wanted opts then trim rest else rest) = true ->
  text s <> [] ->
  applyRules exec (jsstr "deserialize")
    (pushText BLOCKS_TEXT (if trim_wanted opts then trim rest else rest) s)
  = Next s' ->
  lex BLOCKS_TEXT exec (S fuel) s rest opts
  = lex BLOCKS_TEXT exec fuel s' rest opts
  /\ (text s' = [] ->
      lex BLOCKS_TEXT exec (S (S fuel)) s rest opts
      = Return (pushText BLOCKS_TEXT
                  (if trim_wanted opts then trim rest else rest) s')).
Proof.
  intros Hb Ht Hrule.
  assert (Hstart : forall u : St2,
            startState_of BLOCKS_TEXT u rest opts
            = pushText BLOCKS_TEXT
                (if trim_wanted opts then trim rest else rest) u).
  { intros u. unfold startState_of. rewrite Hb. reflexivity. }
  assert (Hstep : forall f, lex BLOCKS_TEXT exec (S f) s rest opts
                            = lex BLOCKS_TEXT exec f s' rest opts).
  { intros f. rewrite lex_step, Hstart, Hrule.
    destruct (text s); [contradiction | reflexivity]. }
  split; [apply Hstep|].
  intros Ht'. rewrite Hstep, lex_step, Ht', Hstart. reflexivity.
Qed.

(** On empty input no rule is applied, whatever the rules are:
    [deserialize('')] returns the empty list of nodes and [serialize([])]
    the empty string, and neither depends on the text or the nodes of the
    state it is called on. *)
Theorem empty_input_applies_no_rule (s : St2) (fuel : nat) :
  deserialize BLOCKS_TEXT exec (S fuel) [] s = Return []
  /\ serialize exec (S fuel) [] s = Return []
  /\ (forall t ns,
        deserialize BLOCKS_TEXT exec fuel t (merge_nodes ns s)
        = deserialize BLOCKS_TEXT exec fuel t s
        /\ serialize exec fuel ns (merge_text t s) = serialize exec fuel ns s).
Proof.
  split; [reflexivity|split; [reflexivity|]].
  intros t ns. split; reflexivity.
Qed.

End LoopLaws.

(** * [matchRule] *)

Section MatchRuleLaws.

Context {ParsingState Payload Token : Type}.
Variable Token_create : jsstring -> (option jsstring * Payload) -> Token.

(** [matchRule] gives nothing exactly when [onText] gives a falsy value: an
    empty array of matches gives an empty list of tokens. Otherwise it gives
    one token per match, in the order of the matches, each made by
    [Token.create] from the match and from the type of the match when it has
    a non-empty one, the type of the rule otherwise; a single match gives
    what the array of this one match gives. *)
Theorem matchRule_tokens (state : ParsingState)
    (rule : @TextRule ParsingState Payload) (t : jsstring) :
  (matchRule Token_create state rule t = None
   <-> onText rule state t = NoMatch)
  /\ (onText rule state t = Matches [] ->
      matchRule Token_create state rule t = Some [])
  /\ (forall m rule',
        onText rule state t = OneMatch m ->
        onText rule' state t = Matches [m] ->
        getType rule' = getType rule ->
        matchRule Token_create state rule t
        = matchRule Token_create state rule' t)
  /\ (forall ms,
        onText rule state t = Matches ms ->
        exists toks,
          matchRule Token_create state rule t = Some toks
          /\ length toks = length ms
          /\ forall i m, ms !! i = Some m ->
               toks !! i
               = Some (Token_create
                         (match fst m with
                          | Some (c :: ty) => c :: ty
                          | _ => getType rule
                          end) m)).
Proof.
  unfold matchRule. split; [|split; [|split]].
  - destruct (onText rule state t); split; intros Heq;
      try discriminate; reflexivity.
  - intros ->. reflexivity.
  - intros m rule' -> Hr Hty. rewrite Hr, Hty. reflexivity.
  - intros ms ->. eexists. split; [reflexivity|split].
    + apply length_map.
    + intros i m Hi. rewrite list_lookup_fmap, Hi. simpl.
      unfold token_type. destruct (fst m) as [[|c ty]|]; reflexivity.
Qed.

End MatchRuleLaws.

(** * The further properties on the small rule set *)


(** A block in front, a rule for text leaves only, and the catch-all rule
    at the end of the table. *)
Lemma html_table_rules_witness :
  applyRules toy_exec (jsstr "serialize")
    (push (OneNode (Block (jsstr "p") []))
       (create (html (decoder FnStar) [encoder FnTextOnly] []
                  (encoder FnEmit)) : ToyState))
  <> Pass.
Proof.
  refine (proj2 (proj2 (proj1
            (html_table_rules toy_exec (decoder FnStar) (encoder FnEmit)
               [encoder FnTextOnly] []
               (push (OneNode (Block (jsstr "p") []))
                  (create (html (decoder FnStar) [encoder FnTextOnly] []
                             (encoder FnEmit)) : ToyState))
               eq_refl) eq_refl)) FnEmit eq_refl _).
  discriminate.
Defined.

Lemma _serialize_identical_state_error_witness :
  _serialize toy_exec 1
    (toy_encoding [Text (jsstr "a") ∅] [decoder FnStar; encoder FnIdentity])
  = Throw (Error identical_state_message).
Proof.
  apply (_serialize_identical_state_error toy_exec _ 0 [decoder FnStar] []
           (encoder FnIdentity) FnIdentity).
  - discriminate.
  - reflexivity.
  - reflexivity.
  - intros r f Hin Hget. toy_rule_cases Hin Hget.
  - reflexivity.
Defined.

Lemma toy_render_exec_renders (s : ToyState) (node : ToyNode)
    (rest : list ToyNode) :
  rulesSet s = rulesSet (toy_create [encoder FnEmit]) ->
  kind s = kind (toy_create [encoder FnEmit]) ->
  nodes s = node :: rest ->
  applyRules toy_render_exec (jsstr "serialize") s
  = Next (write (node_kind node) (shift s)).
Proof.
  intros Hrs Hk Hn. unfold applyRules.
  rewrite (toy_rules [encoder FnEmit] s Hrs Hk). simpl.
  unfold toy_render_exec, peek. rewrite Hn. reflexivity.
Qed.

Lemma serialize_renders_in_order_witness :
  serialize toy_render_exec 3 [Block (jsstr "p") []; Text (jsstr "a") ∅]
    (toy_create [encoder FnEmit])
  = Return (jsstr "blocktext").
Proof.
  apply (proj1 (serialize_renders_in_order toy_render_exec node_kind
                  (toy_create [encoder FnEmit]) toy_render_exec_renders)).
  simpl. lia.
Defined.

Lemma toy_char_exec_tokens (s : ToyState) (c : N) (t : jsstring) :
  rulesSet s = rulesSet (toy_create [decoder FnStar]) ->
  kind s = kind (toy_create [decoder FnStar]) ->
  text s = c :: t ->
  applyRules toy_char_exec (jsstr "deserialize") s
  = Next (push (OneNode (Text [c] ∅)) (skip 1 s)).
Proof.
  intros Hrs Hk Ht. unfold applyRules.
  rewrite (toy_rules [decoder FnStar] s Hrs Hk). simpl.
  unfold toy_char_exec. rewrite Ht. reflexivity.
Qed.

(** With a rule that always matches, the white space at the ends of the
    text is kept. *)
Lemma deserialize_tokens_in_order_witness :
  deserialize TOY_TEXT toy_char_exec 4 (jsstr " a ")
    (toy_create [decoder FnStar])
  = Return [Text (jsstr " ") ∅; Text (jsstr "a") ∅; Text (jsstr " ") ∅].
Proof.
  apply (deserialize_tokens_in_order TOY_TEXT toy_char_exec
           (fun c => Text [c] ∅) (toy_create [decoder FnStar])
           toy_char_exec_tokens (jsstr " a ") 4).
  simpl. lia.
Defined.

Lemma lex_untrimmed_verbatim_witness :
  Outcome_map nodes
    (lex TOY_TEXT toy_exec 4 (toy_decoding " a " []) []
       {| opt_trim := Some false |})
  = Return [Block TOY_TEXT [Text (jsstr " a ") ∅]].
Proof.
  refine (f_equal (Outcome_map nodes)
            (lex_untrimmed_verbatim TOY_TEXT toy_exec (toy_decoding " a " [])
               [] {| opt_trim := Some false |} 4 eq_refl eq_refl _)).
  simpl. lia.
Defined.

(** "ab" is pending when the star rule matches on "*": it comes out before
    the star and once more after it; so does it when "ab*" is decoded from
    the start. *)
Lemma lex_match_keeps_buffer_witness :
  Outcome_map nodes
    (lex TOY_TEXT toy_exec 2 (toy_decoding "*" [decoder FnStar]) (jsstr "ab")
       no_opts)
  = Return [Block TOY_TEXT [Text (jsstr "ab") ∅]; Inline (jsstr "star") [];
            Block TOY_TEXT [Text (jsstr "ab") ∅]]
  /\ deserialize TOY_TEXT toy_exec 4 (jsstr "ab*")
       (toy_create [decoder FnStar])
     = Return [Block TOY_TEXT [Text (jsstr "ab") ∅]; Inline (jsstr "star") [];
               Block TOY_TEXT [Text (jsstr "ab") ∅]].
Proof.
  split; [|reflexivity].
  refine (f_equal (Outcome_map nodes)
            (proj2 (lex_match_keeps_buffer TOY_TEXT toy_exec
                      (toy_decoding "*" [decoder FnStar])
                      (push (OneNode (Inline (jsstr "star") []))
                         (skip 1 (pushText TOY_TEXT (jsstr "ab")
                                    (toy_decoding "*" [decoder FnStar]))))
                      (jsstr "ab") no_opts 0 eq_refl _ eq_refl) eq_refl)).
  discriminate.
Defined.

(** * Pushing lists of nodes, and kinds without rules *)

Section TableLaws.

Context {Mark : Type} `{Countable Mark}.
Context {PropVal : Type}.
Context {RuleFunction : Type}.
Variable BLOCKS_TEXT : jsstring.
Variable exec : RuleFunction -> @State Mark _ _ PropVal RuleFunction
                -> @RuleResult Mark _ _ PropVal RuleFunction.

Abbreviation St3 := (@State Mark _ _ PropVal RuleFunction).
Abbreviation Nd3 := (@Node Mark _ _).


(** [use(kind)] with a kind that has no entry in the rule table (as every
    kind has after [State.create()] without a table) leaves the state
    without rules: the list of rules is empty, decoding gives back the
    trimmed text as at most one node, and encoding a non-empty list of
    nodes throws the no-rule error for the first node. *)
Theorem use_kind_without_rules (k : jsstring) (s : St3) :
  rulesSet s !! k = None ->
  rules (use k s) = []
  /\ (forall (op : jsstring), applyRules exec op (use k s) = Pass)
  /\ (forall (t : jsstring) (fuel : nat),
        (length t < fuel)%nat ->
        deserialize BLOCKS_TEXT exec fuel t (use k s)
        = Return (if truthy (trim t)
                  then [if decide (k = jsstr "block")
                        then Block BLOCKS_TEXT [Text (trim t) (marks s)]
                        else Text (trim t) (marks s)]
                  else []))
  /\ (forall (node : Nd3) (ns : list Nd3) (fuel : nat),
        serialize exec (S fuel) (node :: ns) (use k s)
        = Throw (Error (no_rule_prefix ++ node_kind node ++ jsstr "#"
                        ++ node_type_or_empty node))).
Proof.
  intros Hk.
  assert (Hrules : rules (use k s) = []).
  { unfold rules. simpl. rewrite Hk. reflexivity. }
  split; [exact Hrules|split; [|split]].
  - intros op. unfold applyRules. rewrite Hrules. reflexivity.
  - intros t fuel Hfuel. unfold deserialize.
    rewrite (lex_no_rules BLOCKS_TEXT exec no_opts t
               (deserialize_entry t (use k s)) [] fuel eq_refl Hrules Hfuel).
    rewrite startState_of_trimmed by discriminate.
    change ([] ++ t) with t.
    destruct (truthy (trim t)); [|reflexivity].
    unfold Outcome_map. rewrite pushText_nodes. reflexivity.
  - intros node ns fuel. unfold serialize. rewrite _serialize_step. simpl.
    unfold applyRules.
    change (rules (serialize_entry (node :: ns) (use k s)))
      with (rules (use k s)).
    rewrite Hrules. reflexivity.
Qed.

End TableLaws.

(** The kind "table" has no entry in the rule table. *)
Lemma use_kind_without_rules_witness :
  deserialize TOY_TEXT toy_exec 4 (jsstr " a ")
    (use (jsstr "table") (toy_create [decoder FnStar]))
  = Return [Text (jsstr "a") ∅]
  /\ serialize toy_exec 1 [Inline (jsstr "link") []]
       (use (jsstr "table") (toy_create [encoder FnEmit]))
     = Throw (Error (jsstr "No rule match node inline#link")).
Proof.
  split.
  - refine (proj1 (proj2 (proj2
              (use_kind_without_rules TOY_TEXT toy_exec (jsstr "table")
                 (toy_create [decoder FnStar]) eq_refl))) (jsstr " a ") 4%nat _).
    simpl. lia.
  - exact (proj2 (proj2 (proj2
             (use_kind_without_rules TOY_TEXT toy_exec (jsstr "table")
                (toy_create [encoder FnEmit]) eq_refl)))
             (Inline (jsstr "link") []) [] 0%nat).
Defined.
